(** * node-vcam: the maintenance scripts and the demo sample

    A shallow embedding of the format script and the check script (the
    first two parts of [scripts/format.ts]) and of [samples/demo.ts], and
    the properties the specification states about them.

    - [Scripts]: the two process-spawning scripts, over an error monad that
      logs every child process that is started and how it ended.
    - [Demo]: the sample, as a state machine over the variables of the
      module, a heap of typed arrays and the log of the calls it makes to the
      [Camera] object and to the host's timers. *)

From Stdlib Require Import ZArith NArith Lia String Ascii PrimFloat Uint63.
From stdpp Require Import base option list strings gmap.

Local Open Scope Z_scope.

(** ** The format and check scripts *)

Module Scripts.

(** How a child process ended, as [spawnSync] reports it: an exit status,
    or the signal that killed it (the status is then [null]). *)
Inductive proc_result :=
| Exited (status : Z)
| Killed (signal : string).

#[global] Instance proc_result_eq_dec : EqDecision proc_result.
Proof. solve_decision. Defined.

(** The [stdio] option of [execSync]. *)
Inductive stdio := Pipe | Inherit.

(** What a script does to the outside: it starts a shell command, and the
    command ends.  [execSync] is synchronous: it logs the end of the
    command before it returns. *)
Inductive event :=
| Spawn (cmd : string) (io : stdio)
| Exit (cmd : string) (r : proc_result).

(** The outside world: how the command ends, given everything that has
    happened so far (the first command may change the files the second
    one reads). *)
Definition world := list event → string → proc_result.

(** The error [execSync] throws. *)
Record exec_error := ExecError { err_cmd : string; err_result : proc_result }.

(** Script computations: a log of events, and either an exception or a
    value. *)
Definition M (A : Type) : Type :=
  world → list event → list event * (exec_error + A).

Definition ret {A} (a : A) : M A := λ _ tr, (tr, inr a).

Definition bind {A B} (m : M A) (k : A → M B) : M B := λ w tr,
  match m w tr with
  | (tr', inl e) => (tr', inl e)
  | (tr', inr a) => k a w tr'
  end.

Notation "m ;; k" := (bind m (λ _, k))
  (at level 100, k at level 200, right associativity).

(** [execSync(cmd, { stdio })]: runs [cmd] in a shell, waits for it, and
    throws unless it exited with status 0. *)
Definition execSync (cmd : string) (io : stdio) : M unit := λ w tr,
  let started := tr ++ [Spawn cmd io] in
  let r := w started cmd in
  let ended := started ++ [Exit cmd r] in
  match r with
  | Exited 0 => (ended, inr tt)
  | _ => (ended, inl (ExecError cmd r))
  end.

(** The double quote character, for the quoted arguments. *)
Definition dq : string := String "034"%char EmptyString.

Definition prettier_write : string :=
  "prettier --write " +:+ dq +:+ "**/*.{js,ts,json}" +:+ dq.
Definition cargo_fmt : string := "cargo fmt".
Definition prettier_check : string :=
  "prettier --check " +:+ dq +:+ "**/*.{js,ts,json}" +:+ dq.
Definition eslint : string :=
  "eslint . --ext " +:+ dq +:+ ".ts,.js" +:+ dq.

(** The format script. *)
Definition format_script : M unit :=
  execSync prettier_write Inherit ;;
  execSync cargo_fmt Inherit.

(** The check script. *)
Definition check_script : M unit :=
  execSync prettier_check Inherit ;;
  execSync eslint Inherit.

(** The two scripts, by name, and the two command lines of each. *)
Inductive script_name := format_ts | check_ts.

Definition script (name : script_name) : M unit :=
  match name with format_ts => format_script | check_ts => check_script end.

Definition commands (name : script_name) : string * string :=
  match name with
  | format_ts => (prettier_write, cargo_fmt)
  | check_ts => (prettier_check, eslint)
  end.

(** How a script, run as the main module, ends: an exception nobody
    catches aborts the process. *)
Inductive outcome :=
| Completed
| Uncaught (e : exec_error).

Definition run (s : M unit) (w : world) : list event * outcome :=
  match s w [] with
  | (tr, inr _) => (tr, Completed)
  | (tr, inl e) => (tr, Uncaught e)
  end.

(** The commands a log shows as started, in order. *)
Definition spawned (tr : list event) : list string :=
  omap (λ e, match e with Spawn c _ => Some c | Exit _ _ => None end) tr.

(** A log is sequential when every command that starts ends before
    anything else happens: the log is a chain of [Spawn c; Exit c _]
    pairs. *)
Fixpoint sequential (tr : list event) : bool :=
  match tr with
  | [] => true
  | Spawn c _ :: Exit c' _ :: rest => bool_decide (c = c') && sequential rest
  | _ => false
  end.

(** How the first command of a script ends in world [w]. *)
Definition first_result (w : world) (cmd : string) (io : stdio) : proc_result :=
  w [Spawn cmd io] cmd.

(** Whether a command line has the substring [flag]. *)
Definition has_flag (flag cmd : string) : bool :=
  match String.index 0 flag cmd with
  | Some _ => true
  | None => false
  end.

(** A command line with neither a write flag nor a fix flag. *)
Definition read_only (cmd : string) : bool :=
  negb (has_flag "--write" cmd) && negb (has_flag "--fix" cmd).

(** Two worlds: in one every command succeeds, in the other the formatter
    fails (status 2) and everything else succeeds. *)
Definition all_succeed : world := λ _ _, Exited 0.
Definition prettier_fails : world := λ _ cmd,
  if String.prefix "prettier" cmd then Exited 2 else Exited 0.

End Scripts.

(** ** The demo *)

Module Demo.

(** *** Numbers

    A JavaScript number is a binary64.  The demo computes with
    non-negative integers only, so they are kept in [Z], with the
    rounding of binary64 written out: [b64_round x] is the integer the
    sum or product [x] is stored as (round to nearest, ties to the even
    mantissa; 53 bits of mantissa).  Overflow to infinity, from 2^1024
    on, is left out. *)
Definition b64_round (x : Z) : Z :=
  let a := Z.abs x in
  let ulp := 2 ^ Z.max 0 (Z.log2 a - 52) in
  let q := a / ulp in
  let r := a `mod` ulp in
  let q' :=
    if 2 * r <? ulp then q
    else if ulp <? 2 * r then q + 1
    else if Z.even q then q else q + 1 in
  Z.sgn x * (q' * ulp).

(** The number of a non-negative integer below 2^63, and the comparison of
    [t + 1] as the host computes it with the model. *)
Definition number_of (x : Z) : float := PrimFloat.of_uint63 (Uint63.of_Z x).
Definition incr_agrees (t : Z) : bool :=
  PrimFloat.eqb (number_of t + 1)%float (number_of (b64_round (t + 1))).

(** [ToUint8]: what a store to a [Uint8Array] keeps of an integer. *)
Definition to_uint8 (v : Z) : Z := v `mod` 256.

(** [a[idx] = v] on a [Uint8Array]: a store outside the array is
    ignored, the array never grows. *)
Definition u8_store (a : list Z) (idx : nat) (v : Z) : list Z :=
  <[idx := to_uint8 v]> a.

(** [for (let i = 0; i < n; i++) body] *)
Definition for_upto {T : Type} (n : nat) (body : nat → T → T) (s : T) : T :=
  foldl (λ s i, body i s) s (seq 0 n).

(** *** The body of the timer callback

    The nested loop, for a frame of [rows] by [cols] pixels, over a
    store operation: [u8_store] on the array, or [log_store] to list
    the stores the loop makes. *)
Section Fill.
Context {T : Type} (store : T → nat → Z → T).

Definition fill_pixel (timer : Z) (cols i j : nat) (px : T) : T :=
  let off := (i * cols + j)%nat in
  let px := store px (4 * off)%nat (timer `rem` 256) in
  let px := store px (4 * off + 1)%nat 0 in
  let px := store px (4 * off + 2)%nat (Z.of_nat i `rem` 256) in
  store px (4 * off + 3)%nat 255.

Definition fill (timer : Z) (rows cols : nat) (px : T) : T :=
  for_upto rows (λ i, for_upto cols (λ j, fill_pixel timer cols i j)) px.
End Fill.

Definition log_store (log : list (nat * Z)) (idx : nat) (v : Z) : list (nat * Z) :=
  log ++ [(idx, v)].

(** The stores of one run of the loop, in the order they are made. *)
Definition writes (timer : Z) (rows cols : nat) : list (nat * Z) :=
  fill log_store timer rows cols [].

(** Making a list of stores, in order. *)
Definition apply_writes {T : Type} (store : T → nat → Z → T)
    (s : T) (ws : list (nat * Z)) : T :=
  foldl (λ s p, store s p.1 p.2) s ws.

(** The bytes the stores of one run leave, read in the order of the
    stores. *)
Definition frame (timer : Z) (rows cols : nat) : list Z :=
  (λ p, to_uint8 p.2) <$> writes timer rows cols.

(** *** The host: typed arrays, the Camera class, timers *)

Definition loc := nat.

Inductive event :=
| CameraNew (cam : nat) (width height : Z)
| ArrayNew (l : loc) (len : nat)
| CameraStart (cam : nat)
| CameraSend (cam : nat) (buf : loc) (bytes : list Z)
| SetInterval (id : nat) (period : float)
| ClearInterval (id : nat).

(** The typed arrays by identity, the number of Camera objects made, the
    repeating timers that are scheduled with their periods, and the log
    of the calls made so far. *)
Record host := Host {
  heap : gmap loc (list Z);
  cameras : nat;
  intervals : gmap nat float;
  trace : list event
}.

Definition host0 : host := Host ∅ 0 ∅ [].

Definition log (e : event) (σ : host) : host :=
  Host (heap σ) (cameras σ) (intervals σ) (trace σ ++ [e]).

(** Modelled from the spec: the [Camera] class of [index.ts], which is not
    part of the sources.  The spec gives its shape only,
    [new Camera(width, height)], [.start(): void] and
    [.send(buffer: Uint8Array): void]; the calls are logged, [send] with
    the buffer it is handed and the bytes the buffer holds then, and they
    return without touching the demo's variables or the buffer. *)
Definition new_Camera (width height : Z) (σ : host) : nat * host :=
  let cam := cameras σ in
  (cam, Host (heap σ) (S cam) (intervals σ) (trace σ ++ [CameraNew cam width height])).
Definition camera_start (cam : nat) (σ : host) : host := log (CameraStart cam) σ.
Definition camera_send (cam : nat) (buf : loc) (σ : host) : host :=
  log (CameraSend cam buf (default [] (heap σ !! buf))) σ.

(** [new Uint8Array(len)]: a new array of [len] zeros. *)
Definition new_Uint8Array (len : nat) (σ : host) : loc * host :=
  let l := fresh (dom (heap σ)) in
  (l, Host (<[l := replicate len 0]> (heap σ)) (cameras σ) (intervals σ)
           (trace σ ++ [ArrayNew l len])).

(** [setInterval(callback, period)] schedules a repeating timer and
    returns its id; [clearInterval(id)] is the only way to cancel it. *)
Definition setInterval (period : float) (σ : host) : nat * host :=
  let id := fresh (dom (intervals σ)) in
  (id, Host (heap σ) (cameras σ) (<[id := period]> (intervals σ))
            (trace σ ++ [SetInterval id period])).
Definition clearInterval (id : nat) (σ : host) : host :=
  Host (heap σ) (cameras σ) (delete id (intervals σ)) (trace σ ++ [ClearInterval id]).

(** *** samples/demo.ts

    The variables of the module: [FPS], [camera] and [pixels] are
    [const], [timer] is the [let] the callback counts in. *)
Record state := State {
  host_of : host;
  FPS : float;
  camera : nat;
  pixels : loc;
  timer : Z
}.

(** The callback handed to [setInterval], for a frame of [W] by [H]. *)
Definition callback (W H : nat) (s : state) : state :=
  let σ := host_of s in
  let σ := Host (alter (fill u8_store (timer s) H W) (pixels s) (heap σ))
                (cameras σ) (intervals σ) (trace σ) in
  let σ := camera_send (camera s) (pixels s) σ in
  State σ (FPS s) (camera s) (pixels s) (b64_round (timer s + 1)).

(** The top level of the module, up to the scheduling of the timer. *)
Definition main (W H : nat) : state :=
  let FPS := 60%float in
  let '(camera, σ) := new_Camera (Z.of_nat W) (Z.of_nat H) host0 in
  let '(pixels, σ) := new_Uint8Array (W * H * 4) σ in
  let timer := 0 in
  let σ := camera_start camera σ in
  let '(_, σ) := setInterval (1000 / FPS)%float σ in
  State σ FPS camera pixels timer.

(** The event loop: a scheduled timer fires and its callback runs to
    completion.  Nothing else ever runs. *)
Inductive step (W H : nat) : state → state → Prop :=
| step_tick s id period :
    intervals (host_of s) !! id = Some period →
    step W H s (callback W H s).

(** The sample's frame. *)
Definition WIDTH : nat := 1280.
Definition HEIGHT : nat := 720.

(** The state at the entry of invocation [n] of the callback (after [n]
    invocations). *)
Definition after (n : N) : state := N.iter n (callback WIDTH HEIGHT) (main WIDTH HEIGHT).

Definition reachable (s : state) : Prop := rtc (step WIDTH HEIGHT) (main WIDTH HEIGHT) s.

(** The calls made to the Camera object, without their arguments. *)
Inductive camera_call := CNew (width height : Z) | CStart | CSend.

Definition camera_calls (tr : list event) : list camera_call :=
  omap (λ e, match e with
             | CameraNew _ w h => Some (CNew w h)
             | CameraStart _ => Some CStart
             | CameraSend _ _ _ => Some CSend
             | _ => None
             end) tr.

(** The arrays a log shows as allocated, and the buffer and the number
    of bytes of every [send] it shows. *)
Definition array_allocs (tr : list event) : list (loc * nat) :=
  omap (λ e, match e with ArrayNew l len => Some (l, len) | _ => None end) tr.

Definition send_args (tr : list event) : list (nat * loc * nat) :=
  omap (λ e, match e with
             | CameraSend cam buf bytes => Some (cam, buf, length bytes)
             | _ => None
             end) tr.

End Demo.

(** ** The demo's states in closed form *)

Module DemoStates.
Import Demo.

(** The value of [timer] at the entry of invocation [n], the period of
    the timer, the log of the top level, the bytes of the buffer after [n]
    invocations, the log of the first [n] invocations, and the state they
    make up.  These are not read off the source: the state machine is
    proved below to be in [state_at W H n] after [n] invocations. *)
Definition timer_at (n : N) : Z := Z.min (Z.of_N n) (2 ^ 53).

Definition period : float := (1000 / 60)%float.

Definition top_level_trace (W H : nat) : list event :=
  [CameraNew 0 (Z.of_nat W) (Z.of_nat H); ArrayNew 0%nat (W * H * 4);
   CameraStart 0; SetInterval 0 period].

Definition buffer_at (W H : nat) (n : N) : list Z :=
  match n with
  | N0 => replicate (W * H * 4) 0
  | _ => frame (timer_at (N.pred n)) H W
  end.

Definition sends_upto (W H : nat) (n : nat) : list event :=
  (λ k, CameraSend 0 0%nat (frame (timer_at (N.of_nat k)) H W)) <$> seq 0 n.

Definition state_at (W H : nat) (n : N) : state :=
  State (Host {[0%nat := buffer_at W H n]} 1 {[0%nat := period]}
              (top_level_trace W H ++ sends_upto W H (N.to_nat n)))
        60%float 0 0%nat (timer_at n).

End DemoStates.

(** ** More about runs of the scripts and the log of the demo *)

Module ScriptOutcomes.
Import Scripts.

(** How the second command of a script ends in world [w], once the first
    has exited with status 0. *)
Definition second_result (w : world) (c1 c2 : string) (io : stdio) : proc_result :=
  w [Spawn c1 io; Exit c1 (Exited 0); Spawn c2 io] c2.

(** A world in which the formatter succeeds and the second command is
    killed by a signal. *)
Definition second_killed : world := λ _ cmd,
  if String.prefix "prettier" cmd then Exited 0 else Killed "SIGKILL".

End ScriptOutcomes.

Module DemoLog.
Import Demo.

(** The bytes of the last event of a log, when it is a [send]. *)
Definition last_sent (tr : list event) : option (list Z) :=
  match last tr with
  | Some (CameraSend _ _ bytes) => Some bytes
  | _ => None
  end.


End DemoLog.

(** * Properties *)

(** ** The scripts *)

Section ScriptFacts.
Import Scripts.

(** A script of two [execSync] calls, in every world: the first command
    is started and ends; the second is started if and only if the first
    exited with status 0. *)
Lemma run_two (c1 c2 : string) (io : stdio) (w : world) :
  let r1 := first_result w c1 io in
  run (execSync c1 io ;; execSync c2 io) w =
    if decide (r1 = Exited 0) then
      let tr := [Spawn c1 io; Exit c1 r1; Spawn c2 io] in
      let r2 := w tr c2 in
      (tr ++ [Exit c2 r2],
       if decide (r2 = Exited 0) then Completed else Uncaught (ExecError c2 r2))
    else ([Spawn c1 io; Exit c1 r1], Uncaught (ExecError c1 r1)).
Proof.
  unfold run, bind, execSync, first_result; simpl.
  destruct (w [Spawn c1 io] c1) as [[|p|p]|sg] eqn:E1; simpl; try reflexivity.
  destruct (w _ c2) as [[|p|p]|sg]; reflexivity.
Qed.

Lemma script_unfold (name : script_name) :
  script name = (execSync (commands name).1 Inherit ;; execSync (commands name).2 Inherit).
Proof. destruct name; reflexivity. Qed.

Lemma commands_differ (name : script_name) : (commands name).1 ≠ (commands name).2.
Proof. destruct name; vm_compute; discriminate. Qed.

Lemma spawned_run (name : script_name) (w : world) :
  spawned (run (script name) w).1 =
    if decide (first_result w (commands name).1 Inherit = Exited 0)
    then [(commands name).1; (commands name).2]
    else [(commands name).1].
Proof.
  rewrite script_unfold, run_two. cbv zeta.
  destruct (decide _); reflexivity.
Qed.

Lemma sequential_run (name : script_name) (w : world) :
  sequential (run (script name) w).1 = true.
Proof.
  rewrite script_unfold, run_two. cbv zeta.
  destruct (decide _); simpl; rewrite ?bool_decide_eq_true_2; reflexivity.
Qed.

Example format_run_all_succeed :
  run format_script all_succeed =
    ([Spawn prettier_write Inherit; Exit prettier_write (Exited 0);
      Spawn cargo_fmt Inherit; Exit cargo_fmt (Exited 0)], Completed).
Proof. reflexivity. Qed.

Example check_run_prettier_fails :
  run check_script prettier_fails =
    ([Spawn prettier_check Inherit; Exit prettier_check (Exited 2)],
     Uncaught (ExecError prettier_check (Exited 2))).
Proof. reflexivity. Qed.

(** C3: in the format script and in the check script alike, when the
    first command exits with a status other than zero the script ends in
    an uncaught exception and the second command is never started; when
    the first command exits with status zero the second one is started. *)
Theorem first_exit_status_decides_second
    (name : script_name) (w : world) (n : Z) :
  first_result w (commands name).1 Inherit = Exited n →
  let (c1, c2) := commands name in
  let (tr, out) := run (script name) w in
  (n ≠ 0 → out = Uncaught (ExecError c1 (Exited n)) ∧ spawned tr = [c1] ∧ c2 ∉ spawned tr)
  ∧ (n = 0 → spawned tr = [c1; c2]).
Proof.
  intros Hr. pose proof (commands_differ name) as Hne.
  pose proof (run_two (commands name).1 (commands name).2 Inherit w) as Hrun.
  rewrite <- script_unfold in Hrun. cbv zeta in Hrun.
  destruct (commands name) as [c1 c2]; simpl in *.
  rewrite Hrun, Hr.
  destruct (decide (Exited n = Exited 0)) as [Hz|Hnz]; simpl.
  - injection Hz as ->. split; [intros []; reflexivity | reflexivity].
  - split; [|intros ->; contradiction].
    intros _. split; [done|]. split; [done|].
    rewrite list_elem_of_singleton. congruence.
Qed.

Lemma first_exit_status_decides_second_witness :
  first_result prettier_fails prettier_check Inherit = Exited 2 ∧
  (run check_script prettier_fails).2 = Uncaught (ExecError prettier_check (Exited 2)) ∧
  spawned (run check_script prettier_fails).1 = [prettier_check].
Proof.
  split; [reflexivity|].
  pose proof (first_exit_status_decides_second check_ts prettier_fails 2 eq_refl) as H.
  cbv beta iota delta [commands script] in H.
  destruct (run check_script prettier_fails) as [tr out].
  destruct H as [H _]. destruct H as (H1 & H2 & _); [lia|]. split; assumption.
Defined.

(** C4 as stated fails: when the formatter exits with status 2 the
    format script runs one command, not two. *)
Lemma format_stops_when_prettier_fails :
  spawned (run format_script prettier_fails).1 = [prettier_write] ∧
  ¬ (∀ w, spawned (run format_script w).1 = [prettier_write; cargo_fmt]).
Proof.
  assert (spawned (run format_script prettier_fails).1 = [prettier_write]) as H
    by reflexivity.
  split; [exact H|]. intros Hall. rewrite Hall in H. discriminate H.
Qed.

(** C4, amended: the format script starts the formatter in write mode
    over the js, ts and json files first, in every run; it starts
    [cargo fmt] second exactly when the formatter has exited with
    status 0, and otherwise stops after the formatter; it starts no other
    command, and every command it starts has ended before the next thing
    the script does. *)
Theorem format_runs_prettier_then_cargo_fmt (w : world) :
  let tr := (run format_script w).1 in
  spawned tr =
    (if decide (first_result w prettier_write Inherit = Exited 0)
     then [prettier_write; cargo_fmt] else [prettier_write])
  ∧ sequential tr = true
  ∧ String.prefix "prettier --write " prettier_write = true
  ∧ has_flag "**/*.{js,ts,json}" prettier_write = true
  ∧ cargo_fmt = "cargo fmt".
Proof.
  cbv zeta. split; [exact (spawned_run format_ts w)|].
  split; [exact (sequential_run format_ts w)|].
  repeat split; reflexivity.
Qed.

(** C5 as stated fails: when the formatter's check exits with status 2 the
    check script runs one command, and the linter is not started. *)
Lemma check_stops_when_prettier_fails :
  spawned (run check_script prettier_fails).1 = [prettier_check] ∧
  ¬ (∀ w, spawned (run check_script w).1 = [prettier_check; eslint]).
Proof.
  assert (spawned (run check_script prettier_fails).1 = [prettier_check]) as H
    by reflexivity.
  split; [exact H|]. intros Hall. rewrite Hall in H. discriminate H.
Qed.

(** C5, amended: the check script starts the formatter in check mode
    first, in every run; it starts the linter, with the extensions .ts
    and .js, second exactly when the formatter has exited with status 0,
    and otherwise stops after the formatter; it starts no other command,
    one at a time; and neither command line has a write or a fix flag. *)
Theorem check_runs_prettier_then_eslint (w : world) :
  let tr := (run check_script w).1 in
  spawned tr =
    (if decide (first_result w prettier_check Inherit = Exited 0)
     then [prettier_check; eslint] else [prettier_check])
  ∧ sequential tr = true
  ∧ String.prefix "prettier --check " prettier_check = true
  ∧ String.prefix "eslint " eslint = true
  ∧ has_flag ("--ext " +:+ dq +:+ ".ts,.js" +:+ dq) eslint = true
  ∧ read_only prettier_check = true
  ∧ read_only eslint = true.
Proof.
  cbv zeta. split; [exact (spawned_run check_ts w)|].
  split; [exact (sequential_run check_ts w)|].
  repeat split; reflexivity.
Qed.

End ScriptFacts.

(** ** The demo *)

Section FillFacts.
Import Demo DemoStates.
Local Open Scope nat_scope.

(** The loop and the callback on a frame of two by two pixels. *)
Example u8_store_outside : u8_store [1; 2; 3]%Z 5 9 = [1; 2; 3]%Z.
Proof. reflexivity. Qed.

Example u8_store_wraps : u8_store [1; 2; 3]%Z 1 300 = [1; 44; 3]%Z.
Proof. reflexivity. Qed.

Example writes_2_by_2 :
  writes 263 2 2 =
    (λ p : nat * nat, (p.1, Z.of_nat p.2)) <$>
    [(0, 7); (1, 0); (2, 0); (3, 255); (4, 7); (5, 0); (6, 0); (7, 255);
     (8, 7); (9, 0); (10, 1); (11, 255); (12, 7); (13, 0); (14, 1); (15, 255)].
Proof. reflexivity. Qed.

Example two_ticks_2_by_2 :
  let s := callback 2 2 (callback 2 2 (main 2 2)) in
  trace (host_of s) =
    [CameraNew 0 2 2; ArrayNew 0 16; CameraStart 0; SetInterval 0 period;
     CameraSend 0 0 [0; 0; 0; 255; 0; 0; 0; 255; 0; 0; 1; 255; 0; 0; 1; 255]%Z;
     CameraSend 0 0 [1; 0; 0; 255; 1; 0; 0; 255; 1; 0; 1; 255; 1; 0; 1; 255]%Z]
  ∧ heap (host_of s) !! pixels s =
      Some [1; 0; 0; 255; 1; 0; 0; 255; 1; 0; 1; 255; 1; 0; 1; 255]%Z
  ∧ timer s = 2%Z.
Proof. vm_compute. repeat split; reflexivity. Qed.

Lemma for_upto_S {T : Type} (n : nat) (body : nat → T → T) (s : T) :
  for_upto (S n) body s = body n (for_upto n body s).
Proof. unfold for_upto. rewrite seq_S, foldl_snoc. reflexivity. Qed.

Lemma apply_writes_app {T : Type} (store : T → nat → Z → T) s ws1 ws2 :
  apply_writes store s (ws1 ++ ws2) = apply_writes store (apply_writes store s ws1) ws2.
Proof. apply foldl_app. Qed.

(** A loop whose body makes the stores [lbody i []], and logs them when
    it runs on a log, makes the stores that the loop on the log lists. *)
Section Loop.
Context {T : Type} (store : T → nat → Z → T).
Context (body : nat → T → T) (lbody : nat → list (nat * Z) → list (nat * Z)).
Hypothesis body_writes : ∀ i s, body i s = apply_writes store s (lbody i []).
Hypothesis lbody_app : ∀ i l, lbody i l = l ++ lbody i [].

Lemma for_upto_log (n : nat) (l : list (nat * Z)) :
  for_upto n lbody l = l ++ for_upto n lbody [].
Proof.
  induction n as [|n IH]; [by rewrite app_nil_r|].
  rewrite !for_upto_S, (lbody_app n (for_upto n lbody l)), IH.
  rewrite (lbody_app n (for_upto n lbody [])). by rewrite app_assoc.
Qed.

Lemma for_upto_writes (n : nat) (s : T) :
  for_upto n body s = apply_writes store s (for_upto n lbody []).
Proof.
  induction n as [|n IH]; [reflexivity|].
  rewrite !for_upto_S, body_writes, IH, (lbody_app n (for_upto n lbody [])).
  by rewrite apply_writes_app.
Qed.

(** When store [k] of round [i] goes to index [base + i * m + k]. *)
Lemma for_upto_indices (base m n : nat) :
  (∀ i, (lbody i []).*1 = seq (base + i * m) m) →
  (for_upto n lbody []).*1 = seq base (n * m).
Proof.
  intros Hi. induction n as [|n IH]; [reflexivity|].
  rewrite for_upto_S, lbody_app, fmap_app, IH, Hi.
  replace (S n * m) with (n * m + m) by lia.
  by rewrite seq_app.
Qed.

Lemma for_upto_length (m n : nat) :
  (∀ i, length (lbody i []) = m) →
  length (for_upto n lbody []) = n * m.
Proof.
  intros Hm. induction n as [|n IH]; [reflexivity|].
  rewrite for_upto_S, lbody_app, length_app, IH, Hm. lia.
Qed.

Lemma for_upto_lookup (m n i k : nat) :
  (∀ i, length (lbody i []) = m) →
  i < n → k < m →
  for_upto n lbody [] !! (i * m + k) = lbody i [] !! k.
Proof.
  intros Hm Hi Hk. induction n as [|n IH]; [lia|].
  rewrite for_upto_S, lbody_app.
  destruct (decide (i = n)) as [->|Hne].
  - rewrite lookup_app_r; rewrite (for_upto_length m n Hm); [|lia].
    f_equal. lia.
  - rewrite lookup_app_l; [apply IH; lia|].
    rewrite (for_upto_length m n Hm). nia.
Qed.
End Loop.

(** *** The stores of the nested loop *)

Lemma fill_pixel_writes {T : Type} (store : T → nat → Z → T) t c i j s :
  fill_pixel store t c i j s = apply_writes store s (fill_pixel log_store t c i j []).
Proof. reflexivity. Qed.

Lemma fill_pixel_log t c i j l :
  fill_pixel log_store t c i j l = l ++ fill_pixel log_store t c i j [].
Proof. unfold fill_pixel, log_store. cbn [app]. by rewrite <- !app_assoc. Qed.

Lemma fill_row_writes {T : Type} (store : T → nat → Z → T) t c i s :
  for_upto c (λ j, fill_pixel store t c i j) s =
  apply_writes store s (for_upto c (λ j, fill_pixel log_store t c i j) []).
Proof.
  apply for_upto_writes; intros; [apply fill_pixel_writes | apply fill_pixel_log].
Qed.

Lemma fill_row_log t c i l :
  for_upto c (λ j, fill_pixel log_store t c i j) l =
  l ++ for_upto c (λ j, fill_pixel log_store t c i j) [].
Proof. apply for_upto_log. intros; apply fill_pixel_log. Qed.

(** The loop on an array makes the stores that [writes] lists. *)
Lemma fill_writes {T : Type} (store : T → nat → Z → T) t r c s :
  fill store t r c s = apply_writes store s (writes t r c).
Proof.
  unfold fill, writes, fill.
  apply (for_upto_writes store
           (λ i, for_upto c (λ j, fill_pixel store t c i j))
           (λ i, for_upto c (λ j, fill_pixel log_store t c i j))).
  - intros; apply fill_row_writes.
  - intros; apply fill_row_log.
Qed.

Lemma fill_pixel_indices t c i j :
  (fill_pixel log_store t c i j []).*1 = seq (i * (c * 4) + j * 4) 4.
Proof.
  unfold fill_pixel, log_store. cbn [app fmap list_fmap fst seq].
  repeat f_equal; lia.
Qed.

Lemma fill_row_indices t c i :
  (for_upto c (λ j, fill_pixel log_store t c i j) []).*1 = seq (i * (c * 4)) (c * 4).
Proof.
  apply for_upto_indices; intros; [apply fill_pixel_log | apply fill_pixel_indices].
Qed.

(** The stores of one run go to the indices 0, 1, 2, ... in this order,
    up to the last byte of the frame. *)
Lemma writes_indices t r c : (writes t r c).*1 = seq 0 (r * (c * 4)).
Proof.
  unfold writes, fill.
  apply (for_upto_indices (λ i, for_upto c (λ j, fill_pixel log_store t c i j))).
  - intros; apply fill_row_log.
  - intros; rewrite fill_row_indices. reflexivity.
Qed.

Lemma fill_row_length t c i :
  length (for_upto c (λ j, fill_pixel log_store t c i j) []) = c * 4.
Proof.
  apply for_upto_length; [intros; apply fill_pixel_log | reflexivity].
Qed.

Lemma writes_length t r c : length (writes t r c) = r * (c * 4).
Proof.
  unfold writes, fill.
  apply (for_upto_length (λ i, for_upto c (λ j, fill_pixel log_store t c i j))).
  - intros; apply fill_row_log.
  - intros; apply fill_row_length.
Qed.

(** The four stores for the pixel in row [i] and column [j]. *)
Lemma writes_lookup t r c i j k :
  i < r → j < c → k < 4 →
  writes t r c !! (4 * (i * c + j) + k) =
  [(4 * (i * c + j), (t `rem` 256)%Z); (4 * (i * c + j) + 1, 0%Z);
   (4 * (i * c + j) + 2, (Z.of_nat i `rem` 256)%Z); (4 * (i * c + j) + 3, 255%Z)] !! k.
Proof.
  intros Hi Hj Hk.
  replace (4 * (i * c + j) + k) with (i * (c * 4) + (j * 4 + k)) by lia.
  unfold writes, fill.
  rewrite (for_upto_lookup (λ i, for_upto c (λ j, fill_pixel log_store t c i j))
             (λ i l, fill_row_log t c i l) (c * 4) r i (j * 4 + k)
             (fill_row_length t c) Hi); [|lia].
  rewrite (for_upto_lookup (λ j, fill_pixel log_store t c i j)
             (λ j l, fill_pixel_log t c i j l) 4 c j k); [reflexivity|reflexivity|done..].
Qed.

(** Stores to the indices 0, 1, 2, ..., one for each element of the
    array, replace the whole array. *)
Lemma apply_writes_covering (pre a : list Z) (ws : list (nat * Z)) :
  length a = length ws →
  ws.*1 = seq (length pre) (length ws) →
  apply_writes u8_store (pre ++ a) ws = pre ++ ((λ p, to_uint8 p.2) <$> ws).
Proof.
  revert pre a. induction ws as [|[i v] ws IH]; intros pre a Hlen Hidx.
  - destruct a; [reflexivity|discriminate].
  - destruct a as [|x a]; [discriminate|].
    cbn in Hidx. injection Hidx as -> Hidx. cbn [apply_writes foldl fst snd].
    unfold u8_store at 2.
    replace (length pre) with (length pre + 0) at 1 by lia.
    rewrite insert_app_r.
    change (<[0:=to_uint8 v]> (x :: a)) with (to_uint8 v :: a).
    change (foldl _ ?s ws) with (apply_writes u8_store s ws).
    rewrite fmap_cons. cbn [snd].
    rewrite (cons_middle (to_uint8 v) pre a), app_assoc, (IH (pre ++ [to_uint8 v]) a).
    + rewrite <- app_assoc. reflexivity.
    + cbn in Hlen. lia.
    + rewrite length_app. cbn. rewrite Nat.add_1_r. exact Hidx.
Qed.

(** One run of the loop on an array of the frame's size leaves [frame]. *)
Lemma fill_frame t r c (a : list Z) :
  length a = r * (c * 4) →
  fill u8_store t r c a = frame t r c.
Proof.
  intros Hlen. rewrite fill_writes.
  apply (apply_writes_covering [] a (writes t r c)).
  - by rewrite writes_length.
  - rewrite writes_length. apply writes_indices.
Qed.

Lemma frame_length t r c : length (frame t r c) = r * (c * 4).
Proof. unfold frame. rewrite length_fmap. apply writes_length. Qed.

Lemma frame_lookup t r c i j k :
  i < r → j < c → k < 4 →
  frame t r c !! (4 * (i * c + j) + k) =
  [to_uint8 (t `rem` 256)%Z; 0%Z; to_uint8 (Z.of_nat i `rem` 256)%Z; 255%Z] !! k.
Proof.
  intros Hi Hj Hk. unfold frame.
  rewrite list_lookup_fmap, writes_lookup by done.
  destruct k as [|[|[|[|k]]]]; reflexivity.
Qed.

Lemma to_uint8_rem (t : Z) : (0 ≤ t)%Z → to_uint8 (t `rem` 256) = (t `mod` 256)%Z.
Proof.
  intros Ht. unfold to_uint8. rewrite Z.rem_mod_nonneg by lia.
  apply Z.mod_mod. lia.
Qed.

(** The four bytes of the pixel in row [i] and column [j] of a frame. *)
Lemma frame_pixel t r c i j :
  (0 ≤ t)%Z → i < r → j < c →
  frame t r c !! (4 * (i * c + j)) = Some (t `mod` 256)%Z ∧
  frame t r c !! (4 * (i * c + j) + 1) = Some 0%Z ∧
  frame t r c !! (4 * (i * c + j) + 2) = Some (Z.of_nat i `mod` 256)%Z ∧
  frame t r c !! (4 * (i * c + j) + 3) = Some 255%Z.
Proof.
  intros Ht Hi Hj.
  pose proof (frame_lookup t r c i j 0 Hi Hj ltac:(lia)) as H0.
  pose proof (frame_lookup t r c i j 1 Hi Hj ltac:(lia)) as H1.
  pose proof (frame_lookup t r c i j 2 Hi Hj ltac:(lia)) as H2.
  pose proof (frame_lookup t r c i j 3 Hi Hj ltac:(lia)) as H3.
  rewrite Nat.add_0_r in H0. cbn [lookup list_lookup] in H0, H1, H2, H3.
  rewrite to_uint8_rem in H0 by lia. rewrite to_uint8_rem in H2 by lia.
  auto.
Qed.

End FillFacts.

Section DemoFacts.
Import Demo DemoStates.

(** *** Numbers *)

(** Every integer from 0 to 2^53 is a number, so storing it rounds
    nothing. *)
Lemma b64_round_exact (x : Z) : 0 ≤ x ≤ 2 ^ 53 → b64_round x = x.
Proof.
  intros [H0 H53].
  destruct (decide (x = 2 ^ 53)) as [->|Hne]; [reflexivity|].
  destruct (decide (x = 0)) as [->|Hpos]; [reflexivity|].
  assert (Z.log2 x < 53) as Hlog by (apply Z.log2_lt_pow2; lia).
  unfold b64_round. rewrite Z.abs_eq by lia.
  rewrite Z.max_l by lia. change (2 ^ 0) with 1.
  rewrite Z.div_1_r, Z.mod_1_r. change (2 * 0 <? 1) with true. cbv iota.
  rewrite Z.sgn_pos by lia. lia.
Qed.

(** 2^53 + 1 is not a number: it lies midway between 2^53 and 2^53 + 2
    and is stored as 2^53. *)
Lemma b64_round_stalls : b64_round (2 ^ 53 + 1) = 2 ^ 53.
Proof. reflexivity. Qed.

(** The model of [timer + 1] agrees with the host's binary64 addition,
    below, at and above 2^53. *)
Lemma b64_round_agrees_with_host :
  forallb incr_agrees
    [0; 1; 255; 256; 2 ^ 32; 2 ^ 53 - 2; 2 ^ 53 - 1; 2 ^ 53; 2 ^ 53 + 2;
     2 ^ 53 + 4; 2 ^ 54; 2 ^ 54 + 4; 2 ^ 60; 2 ^ 60 + 256; 2 ^ 60 + 512] = true.
Proof. vm_compute. reflexivity. Qed.

(** The host's own addition at the two ends: 2^53 - 1 is followed by
    2^53, and 2^53 by itself. *)
Lemma host_increment_at_2_53 :
  PrimFloat.eqb (number_of (2 ^ 53 - 1) + 1)%float (number_of (2 ^ 53)) = true ∧
  PrimFloat.eqb (number_of (2 ^ 53) + 1)%float (number_of (2 ^ 53)) = true.
Proof. split; reflexivity. Qed.

Lemma timer_at_succ (n : N) : b64_round (timer_at n + 1) = timer_at (N.succ n).
Proof.
  unfold timer_at. rewrite N2Z.inj_succ.
  destruct (Z_lt_le_dec (Z.of_N n) (2 ^ 53)) as [Hlt|Hge].
  - rewrite !Z.min_l by lia. apply b64_round_exact. lia.
  - rewrite !Z.min_r by lia. apply b64_round_stalls.
Qed.

Lemma timer_at_small (n : N) : (Z.of_N n ≤ 2 ^ 53) → timer_at n = Z.of_N n.
Proof. unfold timer_at. lia. Qed.

(** *** The state machine *)

Lemma main_eq (W H : nat) : main W H = state_at W H 0.
Proof. reflexivity. Qed.

Lemma buffer_at_length (W H : nat) (n : N) :
  length (buffer_at W H n) = (H * (W * 4))%nat.
Proof.
  destruct n; cbn [buffer_at].
  - rewrite length_replicate. lia.
  - apply frame_length.
Qed.

Lemma buffer_at_succ (W H : nat) (n : N) :
  buffer_at W H (N.succ n) = frame (timer_at n) H W.
Proof.
  unfold buffer_at. rewrite N.pred_succ. destruct n; reflexivity.
Qed.

Lemma sends_upto_S (W H : nat) (n : nat) :
  sends_upto W H (S n) =
  sends_upto W H n ++ [CameraSend 0 0%nat (frame (timer_at (N.of_nat n)) H W)].
Proof. unfold sends_upto. rewrite seq_S, fmap_app. reflexivity. Qed.

(** One invocation of the callback takes the closed form at [n] to the
    closed form at [n + 1]. *)
Lemma callback_state_at (W H : nat) (n : N) :
  callback W H (state_at W H n) = state_at W H (N.succ n).
Proof.
  unfold callback, state_at, camera_send, log.
  cbn [host_of heap cameras intervals trace FPS camera pixels timer].
  rewrite alter_singleton_eq, lookup_singleton_eq. cbn [default].
  rewrite (fill_frame _ _ _ _ (buffer_at_length W H n)).
  rewrite buffer_at_succ, timer_at_succ, N2Nat.inj_succ, sends_upto_S.
  rewrite N2Nat.id, app_assoc. reflexivity.
Qed.

Lemma iter_state_at (W H : nat) (n : N) :
  N.iter n (callback W H) (main W H) = state_at W H n.
Proof.
  induction n as [|n IH] using N.peano_ind; [apply main_eq|].
  rewrite N.iter_succ, IH. apply callback_state_at.
Qed.

Lemma after_eq (n : N) : after n = state_at WIDTH HEIGHT n.
Proof. apply iter_state_at. Qed.

Lemma after_succ (n : N) : after (N.succ n) = callback WIDTH HEIGHT (after n).
Proof. unfold after. apply N.iter_succ. Qed.

(** The states the event loop reaches are the states [after n]. *)
Lemma reachable_after (s : state) : reachable s ↔ ∃ n, s = after n.
Proof.
  split.
  - revert s. apply rtc_ind_r.
    + exists 0%N. reflexivity.
    + intros s s' _ Hstep [n ->]. inversion Hstep; subst.
      exists (N.succ n). by rewrite after_succ.
  - intros [n ->]. induction n as [|n IH] using N.peano_ind.
    + apply rtc_refl.
    + rewrite after_succ. eapply rtc_r; [exact IH|].
      apply (step_tick _ _ _ 0%nat period).
      rewrite after_eq. apply lookup_singleton_eq.
Qed.

(** The state an invocation of the callback leaves is reached by the
    event loop. *)
Lemma reachable_tick (n : N) : reachable (callback WIDTH HEIGHT (after n)).
Proof. apply reachable_after. exists (N.succ n). by rewrite after_succ. Qed.

(** What the closed form's log shows. *)
Lemma camera_calls_sends (W H : nat) (n : nat) :
  camera_calls (sends_upto W H n) = replicate n CSend.
Proof.
  induction n as [|n IH]; [reflexivity|].
  rewrite sends_upto_S, replicate_S_end. unfold camera_calls in *.
  rewrite omap_app, IH. reflexivity.
Qed.

Lemma array_allocs_sends (W H : nat) (n : nat) :
  array_allocs (sends_upto W H n) = [].
Proof.
  induction n as [|n IH]; [reflexivity|].
  rewrite sends_upto_S. unfold array_allocs in *.
  rewrite omap_app, IH. reflexivity.
Qed.

Lemma send_args_sends (W H : nat) (n : nat) :
  send_args (sends_upto W H n) = replicate n (0%nat, 0%nat, (H * (W * 4))%nat).
Proof.
  induction n as [|n IH]; [reflexivity|].
  rewrite sends_upto_S, replicate_S_end. unfold send_args in *.
  rewrite omap_app, IH. cbn [omap list_omap app]. by rewrite frame_length.
Qed.

Lemma no_clear_in_sends (W H : nat) (n id : nat) :
  ClearInterval id ∉ sends_upto W H n.
Proof.
  unfold sends_upto. rewrite list_elem_of_fmap. intros (k & Hk & _). discriminate Hk.
Qed.

(** What an invocation of the callback leaves as it was, in any state. *)
Lemma callback_frame (W H : nat) (s : state) :
  let s' := callback W H s in
  FPS s' = FPS s ∧ camera s' = camera s ∧ pixels s' = pixels s ∧
  cameras (host_of s') = cameras (host_of s) ∧
  intervals (host_of s') = intervals (host_of s) ∧
  dom (heap (host_of s')) = dom (heap (host_of s)) ∧
  (∀ l, l ≠ pixels s → heap (host_of s') !! l = heap (host_of s) !! l) ∧
  (∀ bytes, heap (host_of s) !! pixels s = Some bytes →
     ∃ bytes', heap (host_of s') !! pixels s = Some bytes'
               ∧ length bytes' = length bytes).
Proof.
  cbv zeta. unfold callback, camera_send, log.
  cbn [host_of heap cameras intervals trace FPS camera pixels timer].
  repeat split.
  - apply dom_alter_L.
  - intros l Hl. by apply lookup_alter_ne.
  - intros bytes Hb. rewrite lookup_alter_eq, Hb. cbn [fmap option_fmap option_map].
    eexists; split; [reflexivity|].
    rewrite fill_writes. unfold apply_writes.
    generalize (writes (timer s) H W). intros ws. revert bytes Hb.
    induction ws as [|w ws IH] using rev_ind; intros bytes Hb; [reflexivity|].
    rewrite foldl_snoc. unfold u8_store at 1. rewrite length_insert. by apply IH.
Qed.

End DemoFacts.

Section DemoProperties.
Import Demo DemoStates.

Lemma frame_size : (HEIGHT * (WIDTH * 4) = 1280 * 720 * 4)%nat.
Proof. unfold WIDTH, HEIGHT. lia. Qed.

(** The buffer after invocation [n] of the callback. *)
Lemma buffer_after_tick (n : N) :
  let s := callback WIDTH HEIGHT (after n) in
  heap (host_of s) !! pixels s = Some (frame (timer_at n) HEIGHT WIDTH).
Proof.
  cbv zeta. rewrite <- after_succ, after_eq. unfold state_at.
  cbn [host_of heap pixels]. rewrite lookup_singleton_eq, buffer_at_succ.
  reflexivity.
Qed.

(** C1: after every invocation of the timer callback the pixel buffer
    has 1280 * 720 * 4 = 3,686,400 bytes, and the alpha byte of every
    pixel, the byte at index 4 * (i * 1280 + j) + 3 for a row [i] below
    720 and a column [j] below 1280, is 255. *)
Theorem buffer_length_and_alpha_after_tick (n : N) (i j : nat) :
  (i < 720)%nat → (j < 1280)%nat →
  let s := callback WIDTH HEIGHT (after n) in
  ∃ bytes,
    heap (host_of s) !! pixels s = Some bytes ∧
    length bytes = (1280 * 720 * 4)%nat ∧
    Z.of_nat (length bytes) = 3686400 ∧
    bytes !! (4 * (i * 1280 + j) + 3)%nat = Some 255.
Proof.
  intros Hi Hj. cbv zeta. eexists. split; [apply buffer_after_tick|].
  rewrite frame_length, frame_size. split; [reflexivity|]. split; [lia|].
  exact (frame_lookup (timer_at n) HEIGHT WIDTH i j 3 Hi Hj ltac:(lia)).
Qed.

Lemma buffer_length_and_alpha_after_tick_witness :
  ∃ bytes,
    heap (host_of (callback WIDTH HEIGHT (after 7))) !!
      pixels (callback WIDTH HEIGHT (after 7)) = Some bytes ∧
    length bytes = (1280 * 720 * 4)%nat ∧
    Z.of_nat (length bytes) = 3686400 ∧
    bytes !! (4 * (719 * 1280 + 1279) + 3)%nat = Some 255.
Proof.
  apply (buffer_length_and_alpha_after_tick 7 719 1279); lia.
Defined.

(** C2 as stated fails: at invocation 2^53 the value of [timer] is 2^53,
    and [timer++] leaves it there, since 2^53 + 1 is not a number; from
    then on [timer] is no longer the number of the invocation. *)
Lemma timer_stalls_at_2_53 :
  timer (after (2 ^ 53)) = 2 ^ 53 ∧
  timer (callback WIDTH HEIGHT (after (2 ^ 53))) ≠ timer (after (2 ^ 53)) + 1 ∧
  timer (after (2 ^ 53 + 1)) ≠ Z.of_N (2 ^ 53 + 1).
Proof.
  rewrite <- after_succ, !after_eq. unfold state_at. cbn [timer].
  repeat split; discriminate.
Qed.

(** C2, amended: on invocation [n] of the timer callback, for [n] below
    2^53, [timer] is [n] at entry; for every row [i] below 720 and column
    [j] below 1280 the callback leaves the four bytes at offset
    4 * (i * 1280 + j) as n % 256, 0, i % 256 and 255; it then hands the
    buffer to [camera.send], and leaves [timer] at [n + 1].  The bytes
    handed to [send] are [frame n 720 1280], a function of [n] alone. *)
Theorem callback_writes_sends_and_counts (n : N) (i j : nat) :
  Z.of_N n < 2 ^ 53 → (i < 720)%nat → (j < 1280)%nat →
  let s := after n in
  let s' := callback WIDTH HEIGHT s in
  let off := (i * 1280 + j)%nat in
  timer s = Z.of_N n ∧
  ∃ bytes,
    heap (host_of s') !! pixels s' = Some bytes ∧
    bytes !! (4 * off)%nat = Some (Z.of_N n `mod` 256) ∧
    bytes !! (4 * off + 1)%nat = Some 0 ∧
    bytes !! (4 * off + 2)%nat = Some (Z.of_nat i `mod` 256) ∧
    bytes !! (4 * off + 3)%nat = Some 255 ∧
    bytes = frame (Z.of_N n) 720 1280 ∧
    trace (host_of s') =
      trace (host_of s) ++ [CameraSend (camera s) (pixels s) bytes] ∧
    timer s' = Z.of_N n + 1.
Proof.
  intros Hn Hi Hj. cbv zeta.
  assert (timer_at n = Z.of_N n) as Ht by (apply timer_at_small; lia).
  assert (timer_at (N.succ n) = Z.of_N n + 1) as Ht'
    by (rewrite timer_at_small; lia).
  split; [rewrite after_eq; exact Ht|].
  exists (frame (timer_at n) HEIGHT WIDTH).
  split; [apply buffer_after_tick|].
  rewrite Ht.
  destruct (frame_pixel (Z.of_N n) HEIGHT WIDTH i j ltac:(lia) Hi Hj)
    as (H0 & H1 & H2 & H3).
  split; [exact H0|]. split; [exact H1|]. split; [exact H2|]. split; [exact H3|].
  split; [reflexivity|].
  rewrite <- after_succ, !after_eq. unfold state_at.
  cbn [host_of trace camera pixels timer].
  rewrite N2Nat.inj_succ, sends_upto_S, N2Nat.id, Ht, app_assoc.
  split; [reflexivity|exact Ht'].
Qed.

Lemma callback_writes_sends_and_counts_witness :
  timer (after 300) = 300 ∧
  ∃ bytes,
    heap (host_of (callback WIDTH HEIGHT (after 300))) !!
      pixels (callback WIDTH HEIGHT (after 300)) = Some bytes ∧
    bytes !! (4 * (700 * 1280 + 5))%nat = Some 44 ∧
    bytes !! (4 * (700 * 1280 + 5) + 2)%nat = Some 188 ∧
    timer (callback WIDTH HEIGHT (after 300)) = 301.
Proof.
  destruct (callback_writes_sends_and_counts 300 700 5)
    as (Ht & bytes & Hb & H0 & _ & H2 & _ & _ & _ & Ht'); [lia..|].
  split; [exact Ht|]. exists bytes.
  split; [exact Hb|]. split; [exact H0|]. split; [exact H2|exact Ht'].
Defined.

(** C6: the demo constructs the Camera once, for 1280 by 720, starts
    it once, and only then calls [send], once for every invocation of the
    callback: after [n] invocations the calls to the Camera are the
    construction, [start], and [n] times [send], in this order. *)
Theorem camera_calls_in_order (n : N) :
  camera_calls (trace (host_of (after n))) =
    [CNew 1280 720; CStart] ++ replicate (N.to_nat n) CSend
  ∧ trace (host_of (after n)) =
      [CameraNew 0 1280 720; ArrayNew 0%nat (1280 * 720 * 4);
       CameraStart 0; SetInterval 0 period]
      ++ sends_upto WIDTH HEIGHT (N.to_nat n).
Proof.
  rewrite after_eq. unfold state_at. cbn [host_of trace].
  split; [|reflexivity].
  unfold camera_calls. rewrite omap_app.
  change (omap _ (sends_upto ?W ?H ?k)) with (camera_calls (sends_upto W H k)).
  rewrite camera_calls_sends. reflexivity.
Qed.

(** C8: the demo never cancels its timer.  In every state the event loop
    reaches the timer that the top level has scheduled is still
    scheduled, no call of [clearInterval] has been made, and the timer
    can fire again. *)
Theorem timer_stays_scheduled (s : state) :
  reachable s →
  intervals (host_of s) = {[0%nat := period]} ∧
  SetInterval 0 period ∈ trace (host_of s) ∧
  (∀ id, ClearInterval id ∉ trace (host_of s)) ∧
  (∃ s', step WIDTH HEIGHT s s' ∧ reachable s').
Proof.
  intros Hr. pose proof Hr as Hn. apply reachable_after in Hn as [n ->].
  assert (intervals (host_of (after n)) = {[0%nat := period]}) as Hi
    by (rewrite after_eq; reflexivity).
  split; [exact Hi|].
  split; [|split].
  - rewrite after_eq. unfold state_at, top_level_trace. cbn [host_of trace].
    apply elem_of_app. left. do 3 apply list_elem_of_further. apply list_elem_of_here.
  - intros id. rewrite after_eq. unfold state_at, top_level_trace.
    cbn [host_of trace]. rewrite elem_of_app. intros [Htop|Hsend].
    + rewrite !elem_of_cons, elem_of_nil in Htop.
      destruct Htop as [?|[?|[?|[?|[]]]]]; discriminate.
    + by apply no_clear_in_sends in Hsend.
  - exists (callback WIDTH HEIGHT (after n)). split.
    + apply (step_tick _ _ _ 0%nat period). rewrite Hi. apply lookup_singleton_eq.
    + apply reachable_after. exists (N.succ n). by rewrite after_succ.
Qed.

Lemma timer_stays_scheduled_witness :
  let s := callback WIDTH HEIGHT (after 7) in
  intervals (host_of s) = {[0%nat := period]} ∧
  SetInterval 0 period ∈ trace (host_of s) ∧
  (∀ id, ClearInterval id ∉ trace (host_of s)) ∧
  (∃ s', step WIDTH HEIGHT s s' ∧ reachable s').
Proof.
  exact (timer_stays_scheduled (callback WIDTH HEIGHT (after 7)) (reachable_tick 7)).
Defined.

(** C9: the pixel buffer is allocated once, before the timer is
    scheduled, and it is this one object that every invocation of the
    callback fills in place and hands to [camera.send], with its
    1280 * 720 * 4 bytes: after the invocation the object holds what the
    nested loop makes of the bytes it held before, which is the four bytes
    timer % 256, 0, i % 256 and 255 for every pixel, and these are the
    bytes [send] is handed.  The callback changes no variable but [timer],
    which it counts up, and no object but the buffer, whose length it
    keeps. *)
Theorem buffer_allocated_once_and_shared (n : N) :
  let s := after n in
  let s' := callback WIDTH HEIGHT s in
  array_allocs (trace (host_of s)) = [(pixels s, (1280 * 720 * 4)%nat)]
  ∧ array_allocs (trace (host_of s')) = [(pixels s, (1280 * 720 * 4)%nat)]
  ∧ trace (host_of s') !! 1%nat = Some (ArrayNew (pixels s) (1280 * 720 * 4))
  ∧ trace (host_of s') !! 3%nat = Some (SetInterval 0 period)
  ∧ send_args (trace (host_of s')) =
      replicate (S (N.to_nat n)) (camera s, pixels s, (1280 * 720 * 4)%nat)
  ∧ dom (heap (host_of s)) = {[pixels s]}
  ∧ dom (heap (host_of s')) = {[pixels s]}
  ∧ pixels s' = pixels s ∧ camera s' = camera s ∧ FPS s' = FPS s
  ∧ intervals (host_of s') = intervals (host_of s)
  ∧ (∃ bytes bytes',
       heap (host_of s) !! pixels s = Some bytes ∧
       heap (host_of s') !! pixels s = Some bytes' ∧
       length bytes = (1280 * 720 * 4)%nat ∧
       length bytes' = (1280 * 720 * 4)%nat ∧
       bytes' = fill u8_store (timer s) HEIGHT WIDTH bytes ∧
       (∀ i j : nat, (i < 720)%nat → (j < 1280)%nat →
          bytes' !! (4 * (i * 1280 + j))%nat = Some (timer s `mod` 256) ∧
          bytes' !! (4 * (i * 1280 + j) + 1)%nat = Some 0 ∧
          bytes' !! (4 * (i * 1280 + j) + 2)%nat = Some (Z.of_nat i `mod` 256) ∧
          bytes' !! (4 * (i * 1280 + j) + 3)%nat = Some 255) ∧
       trace (host_of s') =
         trace (host_of s) ++ [CameraSend (camera s) (pixels s) bytes'])
  ∧ timer s = Z.min (Z.of_N n) (2 ^ 53)
  ∧ timer s' = Z.min (Z.of_N n + 1) (2 ^ 53).
Proof.
  cbv zeta. rewrite <- after_succ, !after_eq. unfold state_at.
  cbn [host_of heap trace pixels camera FPS intervals timer].
  split.
  { unfold array_allocs. rewrite omap_app.
    change (omap _ (sends_upto ?W ?H ?k)) with (array_allocs (sends_upto W H k)).
    rewrite array_allocs_sends. unfold WIDTH, HEIGHT. reflexivity. }
  split.
  { unfold array_allocs. rewrite omap_app.
    change (omap _ (sends_upto ?W ?H ?k)) with (array_allocs (sends_upto W H k)).
    rewrite array_allocs_sends. unfold WIDTH, HEIGHT. reflexivity. }
  split; [unfold WIDTH, HEIGHT; reflexivity|].
  split; [reflexivity|].
  split.
  { unfold send_args. rewrite omap_app.
    change (omap _ (sends_upto ?W ?H ?k)) with (send_args (sends_upto W H k)).
    rewrite send_args_sends, N2Nat.inj_succ, frame_size. reflexivity. }
  split; [apply dom_singleton_L|]. split; [apply dom_singleton_L|].
  split; [reflexivity|]. split; [reflexivity|]. split; [reflexivity|].
  split; [reflexivity|].
  split.
  { exists (buffer_at WIDTH HEIGHT n), (buffer_at WIDTH HEIGHT (N.succ n)).
    rewrite !lookup_singleton_eq, !buffer_at_length, frame_size.
    do 4 (split; [reflexivity|]).
    rewrite (fill_frame (timer_at n) HEIGHT WIDTH (buffer_at WIDTH HEIGHT n)
               (buffer_at_length WIDTH HEIGHT n)).
    rewrite buffer_at_succ.
    split; [reflexivity|]. split.
    - intros i j Hi Hj.
      assert (0 ≤ timer_at n) as Ht by (unfold timer_at; lia).
      exact (frame_pixel (timer_at n) HEIGHT WIDTH i j Ht Hi Hj).
    - rewrite N2Nat.inj_succ, sends_upto_S, N2Nat.id, app_assoc. reflexivity. }
  unfold timer_at. rewrite N2Z.inj_succ. split; [reflexivity|]. f_equal; lia.
Qed.

(** C10: every store of the nested loop is in bounds of the pixel buffer,
    and one run of the loop stores to every index of the buffer once.  At
    every invocation of the callback, for a row [i] below 720, a column
    [j] below 1280 and a channel [k] below 4, the index
    4 * (i * 1280 + j) + k is below the length of the buffer, which is
    1280 * 720 * 4; it is the index of store number 4 * (i * 1280 + j) + k
    of the run, and the value of that store is what the buffer holds at
    this index after the invocation; the indices of the stores of the run,
    in order, are 0, 1, ... up to the last index of the buffer, each once;
    and the buffer after the invocation is the buffer before it with these
    stores made, of the same length. *)
Theorem loop_stores_in_bounds_and_cover (n : N) (i j k : nat) :
  (i < 720)%nat → (j < 1280)%nat → (k < 4)%nat →
  let s := after n in
  let idx := (4 * (i * 1280 + j) + k)%nat in
  let stores := writes (timer s) HEIGHT WIDTH in
  ∃ (bytes bytes' : list Z) (v : Z),
    heap (host_of s) !! pixels s = Some bytes
    ∧ length bytes = (1280 * 720 * 4)%nat
    ∧ (0 ≤ idx < length bytes)%nat
    ∧ stores !! idx = Some (idx, v)
    ∧ stores.*1 = seq 0 (length bytes)
    ∧ NoDup stores.*1
    ∧ (∀ x, x ∈ stores.*1 ↔ (x < length bytes)%nat)
    ∧ heap (host_of (callback WIDTH HEIGHT s)) !! pixels s = Some bytes'
    ∧ bytes' = apply_writes u8_store bytes stores
    ∧ length bytes' = length bytes
    ∧ bytes' !! idx = Some (to_uint8 v)
    ∧ (∀ a, fill u8_store (timer s) HEIGHT WIDTH a =
            apply_writes u8_store a stores).
Proof.
  intros Hi Hj Hk. cbv zeta.
  rewrite <- after_succ, !after_eq. unfold state_at.
  cbn [host_of heap pixels timer].
  pose proof (writes_indices (timer_at n) HEIGHT WIDTH) as Hidx.
  pose proof (buffer_at_length WIDTH HEIGHT n) as Hlen.
  assert (4 * (i * 1280 + j) + k < HEIGHT * (WIDTH * 4))%nat as Hin
    by (rewrite frame_size; lia).
  assert (∃ v, writes (timer_at n) HEIGHT WIDTH !! (4 * (i * 1280 + j) + k)%nat
               = Some ((4 * (i * 1280 + j) + k)%nat, v)) as [v Hv].
  { pose proof (f_equal (λ l, l !! (4 * (i * 1280 + j) + k)%nat) Hidx) as Hl.
    cbv beta in Hl. rewrite list_lookup_fmap, lookup_seq_lt in Hl by exact Hin.
    destruct (writes (timer_at n) HEIGHT WIDTH !! (4 * (i * 1280 + j) + k)%nat)
      as [[i' v]|]; [|discriminate Hl].
    cbn in Hl. apply (inj Some) in Hl. subst i'. by exists v. }
  exists (buffer_at WIDTH HEIGHT n), (buffer_at WIDTH HEIGHT (N.succ n)), v.
  rewrite !lookup_singleton_eq, !buffer_at_length, Hidx.
  split; [reflexivity|]. split; [apply frame_size|]. split; [lia|].
  split; [exact Hv|]. split; [reflexivity|]. split; [apply NoDup_seq|].
  split; [intros x; rewrite elem_of_seq; lia|].
  split; [reflexivity|].
  split.
  { rewrite buffer_at_succ, <- (fill_frame _ _ _ _ Hlen). apply fill_writes. }
  split; [reflexivity|].
  split.
  { rewrite buffer_at_succ. unfold frame. by rewrite list_lookup_fmap, Hv. }
  intros a. apply fill_writes.
Qed.

Lemma loop_stores_in_bounds_and_cover_witness :
  let s := after 7 in
  let idx := (4 * (719 * 1280 + 1279) + 3)%nat in
  let stores := writes (timer s) HEIGHT WIDTH in
  ∃ (bytes bytes' : list Z) (v : Z),
    heap (host_of s) !! pixels s = Some bytes
    ∧ length bytes = (1280 * 720 * 4)%nat
    ∧ (0 ≤ idx < length bytes)%nat
    ∧ stores !! idx = Some (idx, v)
    ∧ stores.*1 = seq 0 (length bytes)
    ∧ NoDup stores.*1
    ∧ (∀ x, x ∈ stores.*1 ↔ (x < length bytes)%nat)
    ∧ heap (host_of (callback WIDTH HEIGHT s)) !! pixels s = Some bytes'
    ∧ bytes' = apply_writes u8_store bytes stores
    ∧ length bytes' = length bytes
    ∧ bytes' !! idx = Some (to_uint8 v)
    ∧ (∀ a, fill u8_store (timer s) HEIGHT WIDTH a =
            apply_writes u8_store a stores).
Proof.
  apply (loop_stores_in_bounds_and_cover 7 719 1279 3); lia.
Defined.

(** The period handed to [setInterval], as the host computes it: the
    binary64 quotient of 1000 by [FPS]; sixty of them are not 1000. *)
Remark period_value :
  FPS (main WIDTH HEIGHT) = 60%float ∧
  period = (1000 / FPS (main WIDTH HEIGHT))%float ∧
  period = 0x1.0aaaaaaaaaaabp+4%float ∧
  (period * 60)%float = 0x1.f400000000001p+9%float.
Proof. repeat split; reflexivity. Qed.




End DemoProperties.

(** ** How a run of a script ends *)

Section ScriptOutcomeFacts.
Import Scripts ScriptOutcomes.

(** X1: a script completes if and only if its first command exits with
    status 0 and its second command, started after that, exits with
    status 0 as well. *)
Theorem script_completes_iff_both_exit_zero (name : script_name) (w : world) :
  let (c1, c2) := commands name in
  (run (script name) w).2 = Completed ↔
  first_result w c1 Inherit = Exited 0 ∧ second_result w c1 c2 Inherit = Exited 0.
Proof.
  pose proof (run_two (commands name).1 (commands name).2 Inherit w) as Hrun.
  rewrite <- script_unfold in Hrun. cbv zeta in Hrun.
  destruct (commands name) as [c1 c2]; cbn [fst snd] in Hrun.
  rewrite Hrun. unfold second_result.
  destruct (decide (first_result w c1 Inherit = Exited 0)) as [H1|H1].
  - rewrite H1. cbn [snd].
    destruct (decide (w [Spawn c1 Inherit; Exit c1 (Exited 0); Spawn c2 Inherit] c2
                      = Exited 0)) as [H2|H2].
    + split; [intros _; split; [reflexivity|exact H2] | reflexivity].
    + split; [discriminate | intros [_ H2']; contradiction].
  - cbn [snd]. split; [discriminate | intros [H1' _]; contradiction].
Qed.

(** X2: when a script ends in an uncaught error, the error carries the
    command that was started last and how that command ended, which is not
    an exit with status 0 (a status other than 0, or a signal); the end of
    that command is the last event of the log. *)
Theorem uncaught_error_names_last_command
    (name : script_name) (w : world) (e : exec_error) :
  (run (script name) w).2 = Uncaught e →
  let tr := (run (script name) w).1 in
  last (spawned tr) = Some (err_cmd e)
  ∧ last tr = Some (Exit (err_cmd e) (err_result e))
  ∧ err_result e ≠ Exited 0
  ∧ (err_cmd e = (commands name).1 ∨ err_cmd e = (commands name).2).
Proof.
  cbv zeta. rewrite script_unfold, run_two. cbv zeta.
  destruct (decide (first_result w (commands name).1 Inherit = Exited 0)) as [H1|H1].
  - cbn [fst snd]. destruct (decide _) as [H2|H2]; [discriminate|].
    intros [= <-]. cbn [err_cmd err_result]. repeat split; auto.
  - cbn [fst snd]. intros [= <-]. cbn [err_cmd err_result]. repeat split; auto.
Qed.

Lemma uncaught_error_names_last_command_witness :
  (run check_script second_killed).2 = Uncaught (ExecError eslint (Killed "SIGKILL")) ∧
  last (spawned (run check_script second_killed).1) = Some eslint.
Proof.
  split; [reflexivity|].
  exact (proj1 (uncaught_error_names_last_command check_ts second_killed
                  (ExecError eslint (Killed "SIGKILL")) eq_refl)).
Defined.

End ScriptOutcomeFacts.

(** ** The loop on an array of any length *)

Section LoopBoundsFacts.
Import Demo DemoStates.
Local Open Scope nat_scope.

(** Stores past the end of an array leave it as it is. *)
Lemma apply_writes_outside (l : list Z) (ws : list (nat * Z)) :
  Forall (λ p, length l ≤ p.1) ws → apply_writes u8_store l ws = l.
Proof.
  induction ws as [|[i v] ws IH] using rev_ind; [reflexivity|].
  rewrite Forall_app, Forall_singleton. intros [Hws Hi].
  rewrite apply_writes_app, (IH Hws). cbn [apply_writes foldl fst snd].
  unfold u8_store. apply list_insert_ge. exact Hi.
Qed.

(** Stores to the indices that follow [pre], one after the other, on an
    array of any length: the stores that fall inside replace what was
    there, the others are dropped, and what lies past the last index
    stays. *)
Lemma apply_writes_any_length (pre a : list Z) (ws : list (nat * Z)) :
  ws.*1 = seq (length pre) (length ws) →
  apply_writes u8_store (pre ++ a) ws =
    pre ++ take (length a) ((λ p, to_uint8 p.2) <$> ws) ++ drop (length ws) a.
Proof.
  revert pre a. induction ws as [|[i v] ws IH]; intros pre a Hidx.
  - cbn [length fmap list_fmap]. by rewrite take_nil, drop_0.
  - cbn in Hidx. injection Hidx as -> Hidx. destruct a as [|x a].
    + rewrite apply_writes_outside.
      * cbn [length take]. by rewrite drop_nil.
      * rewrite app_nil_r. apply Forall_forall. intros [i' v'] Hin.
        assert (i' ∈ ((length pre, v) :: ws).*1) as Hi'
          by (apply list_elem_of_fmap; exists (i', v'); split; [reflexivity|exact Hin]).
        rewrite fmap_cons in Hi'. cbn [fst] in Hi'. rewrite Hidx in Hi'.
        apply elem_of_cons in Hi' as [->|Hi']; [cbn; lia|].
        apply elem_of_seq in Hi'. cbn. lia.
    + cbn [apply_writes foldl fst snd]. unfold u8_store at 2.
      replace (length pre) with (length pre + 0) at 1 by lia.
      rewrite insert_app_r.
      change (<[0:=to_uint8 v]> (x :: a)) with (to_uint8 v :: a).
      change (foldl _ ?s ws) with (apply_writes u8_store s ws).
      rewrite (cons_middle (to_uint8 v) pre a), app_assoc, (IH (pre ++ [to_uint8 v]) a).
      * rewrite <- app_assoc. reflexivity.
      * rewrite length_app. cbn. rewrite Nat.add_1_r. exact Hidx.
Qed.

Lemma fill_any_length t r c (a : list Z) :
  fill u8_store t r c a = take (length a) (frame t r c) ++ drop (r * (c * 4)) a.
Proof.
  rewrite fill_writes.
  pose proof (apply_writes_any_length [] a (writes t r c)) as Hw.
  rewrite writes_length in Hw. exact (Hw (writes_indices t r c)).
Qed.

(** X3: on an array of any length the nested loop of the callback stores
    no byte outside the array and never makes the array longer: an array
    shorter than the frame receives the first bytes of the frame, and in a
    longer one the bytes from index 1280 * 720 * 4 on stay as they were. *)
Theorem loop_on_any_array (t : Z) (a : list Z) :
  fill u8_store t HEIGHT WIDTH a =
    take (length a) (frame t HEIGHT WIDTH) ++ drop (1280 * 720 * 4) a
  ∧ length (fill u8_store t HEIGHT WIDTH a) = length a
  ∧ (∀ idx, 1280 * 720 * 4 ≤ idx → fill u8_store t HEIGHT WIDTH a !! idx = a !! idx).
Proof.
  rewrite <- frame_size, fill_any_length.
  split; [reflexivity|]. split.
  - rewrite length_app, length_take, length_drop, frame_length. lia.
  - intros idx Hidx.
    destruct (decide (length a ≤ HEIGHT * (WIDTH * 4))) as [Hle|Hgt].
    + rewrite drop_ge, app_nil_r by lia.
      rewrite !lookup_ge_None_2; [reflexivity|lia|].
      rewrite length_take, frame_length. lia.
    + rewrite lookup_app_r; rewrite length_take, frame_length; [|lia].
      rewrite lookup_drop. f_equal. lia.
Qed.

End LoopBoundsFacts.

(** ** The frames the demo sends *)

Section AnimationFacts.
Import Demo DemoStates DemoLog.

Lemma for_upto_ext {T : Type} (n : nat) (body body' : nat → T → T) (s : T) :
  (∀ i s, body i s = body' i s) → for_upto n body s = for_upto n body' s.
Proof.
  intros Hb. induction n as [|n IH]; [reflexivity|].
  by rewrite !for_upto_S, IH, Hb.
Qed.

(** The loop reads [timer] through [timer % 256] only. *)
Lemma writes_rem (t t' : Z) (r c : nat) :
  t `rem` 256 = t' `rem` 256 → writes t r c = writes t' r c.
Proof.
  intros Ht. unfold writes, fill.
  apply for_upto_ext. intros i l. apply for_upto_ext. intros j l'.
  unfold fill_pixel. by rewrite Ht.
Qed.

Lemma frame_periodic (t : Z) (r c : nat) :
  0 ≤ t → frame (t + 256) r c = frame t r c.
Proof.
  intros Ht. unfold frame. f_equal. apply writes_rem.
  rewrite !Z.rem_mod_nonneg by lia.
  replace (t + 256) with (t + 1 * 256) by lia. apply Z_mod_plus_full.
Qed.

(** The values one run of the loop stores, for a [timer] that is not
    negative, are bytes already. *)
Lemma fill_pixel_values (t : Z) (c i j : nat) :
  0 ≤ t →
  Forall (λ p : nat * Z, 0 ≤ p.2 ≤ 255) (fill_pixel log_store t c i j []).
Proof.
  intros Ht. unfold fill_pixel, log_store. cbn [app].
  pose proof (Z.rem_bound_pos t 256 Ht ltac:(lia)).
  pose proof (Z.rem_bound_pos (Z.of_nat i) 256 ltac:(lia) ltac:(lia)).
  repeat constructor; cbn [snd]; lia.
Qed.

Lemma for_upto_Forall (P : nat * Z → Prop) (n : nat)
    (lbody : nat → list (nat * Z) → list (nat * Z)) :
  (∀ i l, lbody i l = l ++ lbody i []) →
  (∀ i, Forall P (lbody i [])) →
  Forall P (for_upto n lbody []).
Proof.
  intros Happ HP. induction n as [|n IH]; [constructor|].
  rewrite for_upto_S, Happ. apply Forall_app. split; [exact IH|apply HP].
Qed.

Lemma writes_values (t : Z) (r c : nat) :
  0 ≤ t → Forall (λ p : nat * Z, 0 ≤ p.2 ≤ 255) (writes t r c).
Proof.
  intros Ht. unfold writes, fill.
  apply (for_upto_Forall _ r (λ i, for_upto c (λ j, fill_pixel log_store t c i j))).
  - intros; apply fill_row_log.
  - intros i. apply (for_upto_Forall _ c (λ j, fill_pixel log_store t c i j)).
    + intros; apply fill_pixel_log.
    + intros j. by apply fill_pixel_values.
Qed.

Lemma timer_after (n : N) : timer (after n) = Z.min (Z.of_N n) (2 ^ 53).
Proof. rewrite after_eq. reflexivity. Qed.

(** What invocation [n] of the callback hands to [send]. *)
Lemma last_sent_after (n : N) :
  last_sent (trace (host_of (after (N.succ n)))) =
    Some (frame (Z.min (Z.of_N n) (2 ^ 53)) HEIGHT WIDTH).
Proof.
  rewrite after_eq. unfold state_at. cbn [host_of trace].
  rewrite N2Nat.inj_succ, sends_upto_S, N2Nat.id, app_assoc.
  unfold last_sent. rewrite last_snoc. reflexivity.
Qed.

(** X4: every value the callback stores is a byte already, from 0 to 255,
    in every run of the demo: no store to the pixel buffer is cut down to
    eight bits, and the buffer holds the values as they were computed. *)
Theorem stores_need_no_truncation (n : N) :
  let ws := writes (timer (after n)) HEIGHT WIDTH in
  Forall (λ p : nat * Z, 0 ≤ p.2 ≤ 255 ∧ to_uint8 p.2 = p.2) ws
  ∧ heap (host_of (callback WIDTH HEIGHT (after n))) !! pixels (after n) = Some ws.*2.
Proof.
  cbv zeta. rewrite timer_after.
  assert (Forall (λ p : nat * Z, 0 ≤ p.2 ≤ 255 ∧ to_uint8 p.2 = p.2)
            (writes (Z.min (Z.of_N n) (2 ^ 53)) HEIGHT WIDTH)) as Hall.
  { eapply Forall_impl; [apply writes_values; lia|].
    intros p Hp. cbv beta in Hp. split; [exact Hp|].
    unfold to_uint8. apply Z.mod_small. lia. }
  split; [exact Hall|].
  pose proof (buffer_after_tick n) as Hb. cbv zeta in Hb.
  destruct (callback_frame WIDTH HEIGHT (after n)) as (_ & _ & Hpx & _).
  rewrite <- Hpx, Hb. apply (f_equal Some).
  unfold frame, timer_at. apply Forall_fmap_ext_1.
  eapply Forall_impl; [exact Hall|]. intros p [_ Hp]. exact Hp.
Qed.

(** X5: the frames repeat with period 256.  As long as [timer] counts,
    invocation [n + 256] of the callback hands to [send] the bytes that
    invocation [n] did. *)
Theorem frames_repeat_every_256 (n : N) :
  Z.of_N n + 256 ≤ 2 ^ 53 →
  last_sent (trace (host_of (after (N.succ (n + 256))))) =
  last_sent (trace (host_of (after (N.succ n)))).
Proof.
  intros Hn. rewrite !last_sent_after, N2Z.inj_add.
  rewrite !Z.min_l by lia. change (Z.of_N 256) with 256.
  rewrite frame_periodic by lia. reflexivity.
Qed.

Lemma frames_repeat_every_256_witness :
  last_sent (trace (host_of (after (N.succ (44 + 256))))) =
  last_sent (trace (host_of (after (N.succ 44)))).
Proof. apply (frames_repeat_every_256 44). lia. Defined.

(** X6: as long as [timer] counts, two invocations in a row never hand
    the same bytes to [send]: the first byte of the buffer, the red channel
    of the first pixel, is different. *)
Theorem consecutive_frames_differ (n : N) :
  Z.of_N n < 2 ^ 53 →
  last_sent (trace (host_of (after (N.succ (N.succ n))))) ≠
  last_sent (trace (host_of (after (N.succ n)))).
Proof.
  intros Hn. rewrite !last_sent_after, N2Z.inj_succ.
  rewrite !Z.min_l by lia. intros Heq.
  assert (frame (Z.succ (Z.of_N n)) HEIGHT WIDTH = frame (Z.of_N n) HEIGHT WIDTH)
    as Hfr by congruence.
  clear Heq.
  assert (0 < HEIGHT)%nat as HH by (unfold HEIGHT; lia).
  assert (0 < WIDTH)%nat as HW by (unfold WIDTH; lia).
  destruct (frame_pixel (Z.succ (Z.of_N n)) HEIGHT WIDTH 0 0 ltac:(lia) HH HW) as [H1 _].
  destruct (frame_pixel (Z.of_N n) HEIGHT WIDTH 0 0 ltac:(lia) HH HW) as [H0 _].
  rewrite Hfr, H0 in H1. apply (inj Some) in H1.
  pose proof (Z.mod_pos_bound (Z.of_N n) 256 ltac:(lia)).
  pose proof (Z.mod_pos_bound (Z.succ (Z.of_N n)) 256 ltac:(lia)).
  pose proof (Z.div_mod (Z.of_N n) 256 ltac:(lia)).
  pose proof (Z.div_mod (Z.succ (Z.of_N n)) 256 ltac:(lia)).
  lia.
Qed.

Lemma consecutive_frames_differ_witness :
  last_sent (trace (host_of (after (N.succ (N.succ 255))))) ≠
  last_sent (trace (host_of (after (N.succ 255)))).
Proof. apply (consecutive_frames_differ 255). lia. Defined.

(** X7: at every invocation [n], without a bound on [n], [timer] at entry
    is the smaller of [n] and 2^53, and the bytes handed to [send] are the
    frame of that value; so [timer] never decreases, never grows by more
    than 1, never exceeds 2^53, and from invocation 2^53 on [timer] and the
    bytes sent stay the same for ever. *)
Theorem timer_and_frame_at_every_invocation (n : N) :
  timer (after n) = Z.min (Z.of_N n) (2 ^ 53)
  ∧ last_sent (trace (host_of (after (N.succ n)))) =
      Some (frame (Z.min (Z.of_N n) (2 ^ 53)) HEIGHT WIDTH)
  ∧ timer (after n) ≤ timer (after (N.succ n)) ≤ timer (after n) + 1
  ∧ 0 ≤ timer (after n) ≤ 2 ^ 53.
Proof.
  rewrite !timer_after, N2Z.inj_succ.
  split; [reflexivity|]. split; [apply last_sent_after|]. lia.
Qed.

End AnimationFacts.
